(** * useCleanupCallback: a shallow embedding of the hook with options

    The model follows the latest version of [useCleanupCallback]
    (the one with [Options] and the [{ cleanup, isCalled }] ref object).
    The hook's mutable refs and the React host around it are threaded as
    explicit state; thrown exceptions are an error result of a small
    state-and-exception monad, whose state changes survive the throw as
    they do in JavaScript. *)

From Stdlib Require Import List Bool Arith Lia.
Import ListNotations.

(** ** Data *)

(** A release closure.  Its body is opaque; what matters is its identity
    and whether calling it throws. *)
Inductive Action : Type :=
| Act (act_id : nat) (act_throws : bool).

Definition action_throws (a : Action) : bool :=
  match a with Act _ t => t end.

(** [Options] with the defaults of the destructuring parameter
    [{ cleanUpOnCall = true, cleanUpOnDepsChange = false,
       cleanUpOnUnmount = true }]. *)
Record Options : Type := mkOptions {
  cleanUpOnCall : bool;
  cleanUpOnDepsChange : bool;
  cleanUpOnUnmount : bool
}.

Definition default_options : Options := mkOptions true false true.

(** The value returned by the user callback ([returnValue]):
    [undefined], a function (the cleanup itself), or an object
    [{ value, cleanup }] whose [cleanup] may be absent. *)
Inductive ReturnValue : Type :=
| RUndefined
| RFunction (a : Action)
| RObject (value : nat) (cleanup : option Action).

(** What one call of the user callback does: return, or throw. *)
Inductive OpOutcome : Type :=
| Returns (r : ReturnValue)
| Throws (e : nat).

(** A user callback: a JavaScript function value with an identity.  Its
    result may depend on the arguments and on how many user callbacks have
    run so far (closures such as [numCalls++] in the tests). *)
Record Operation : Type := mkOperation {
  op_id : nat;
  op_run : list nat -> nat -> OpOutcome
}.

(** The value the output callback returns to its caller. *)
Inductive Val : Type :=
| VUndefined
| VFunction (a : Action)
| VValue (v : nat).

(** Exceptions surfacing from the hook. *)
Inductive Exn : Type :=
| ExnAction (a : Action)
| ExnOp (e : nat).

(** The object held in [cleanupRef.current]: [{ cleanup, isCalled }].
    [slot_id] is its heap identity (each assignment of an object literal
    allocates a new one). [cleanup = None] stands for [null]/[undefined]. *)
Record Slot : Type := mkSlot {
  slot_id : nat;
  cleanup : option Action;
  isCalled : bool
}.

(** A memoised output callback ([useCallback]'s value): its identity and
    the user callback it closed over. *)
Record Closure : Type := mkClosure {
  cl_id : nat;
  cl_op : Operation
}.

(** A dependency array passed by the host: its identity and its items. *)
Record DepsArray : Type := mkDeps {
  arr_id : nat;
  arr_items : list nat
}.

(** Observable events, in order. *)
Inductive Event : Type :=
| EvOp (opid : nat)                 (* the user callback is called *)
| EvFire (slot : nat) (a : Action). (* a cleanup body is called *)

(** The hook instance and the part of the host that it touches. *)
Record St : Type := mkSt {
  cleanupRef : Slot;
  optionsRef : Options;
  memo_deps : list nat;       (* useCallback's stored deps *)
  memo_cb : Closure;          (* useCallback's stored callback *)
  deps_effect_dep : nat;      (* the [deps] array object of useEffect([deps]) *)
  mounted : bool;
  next_obj : nat;             (* heap allocator for ref objects *)
  next_fn : nat;              (* allocator for closure identities *)
  op_calls : nat;
  trace : list Event
}.

(** Field updates. *)
Definition set_cleanupRef (o : Slot) (s : St) : St :=
  mkSt o (optionsRef s) (memo_deps s) (memo_cb s) (deps_effect_dep s)
    (mounted s) (next_obj s) (next_fn s) (op_calls s) (trace s).
Definition set_optionsRef (x : Options) (s : St) : St :=
  mkSt (cleanupRef s) x (memo_deps s) (memo_cb s) (deps_effect_dep s)
    (mounted s) (next_obj s) (next_fn s) (op_calls s) (trace s).
Definition set_memo (d : list nat) (c : Closure) (s : St) : St :=
  mkSt (cleanupRef s) (optionsRef s) d c (deps_effect_dep s)
    (mounted s) (next_obj s) (next_fn s) (op_calls s) (trace s).
Definition set_deps_effect_dep (d : nat) (s : St) : St :=
  mkSt (cleanupRef s) (optionsRef s) (memo_deps s) (memo_cb s) d
    (mounted s) (next_obj s) (next_fn s) (op_calls s) (trace s).
Definition set_mounted (b : bool) (s : St) : St :=
  mkSt (cleanupRef s) (optionsRef s) (memo_deps s) (memo_cb s)
    (deps_effect_dep s) b (next_obj s) (next_fn s) (op_calls s) (trace s).
Definition set_next_obj (n : nat) (s : St) : St :=
  mkSt (cleanupRef s) (optionsRef s) (memo_deps s) (memo_cb s)
    (deps_effect_dep s) (mounted s) n (next_fn s) (op_calls s) (trace s).
Definition set_next_fn (n : nat) (s : St) : St :=
  mkSt (cleanupRef s) (optionsRef s) (memo_deps s) (memo_cb s)
    (deps_effect_dep s) (mounted s) (next_obj s) n (op_calls s) (trace s).
Definition set_op_calls (n : nat) (s : St) : St :=
  mkSt (cleanupRef s) (optionsRef s) (memo_deps s) (memo_cb s)
    (deps_effect_dep s) (mounted s) (next_obj s) (next_fn s) n (trace s).
Definition emit (e : Event) (s : St) : St :=
  mkSt (cleanupRef s) (optionsRef s) (memo_deps s) (memo_cb s)
    (deps_effect_dep s) (mounted s) (next_obj s) (next_fn s) (op_calls s)
    (trace s ++ [e]).

(** ** A state-and-exception monad *)

Inductive Res (A : Type) : Type :=
| Ok (a : A)
| Err (e : Exn).
Arguments Ok {A} a.
Arguments Err {A} e.

Definition M (A : Type) : Type := St -> Res A * St.

Definition ret {A} (a : A) : M A := fun s => (Ok a, s).
Definition bind {A B} (m : M A) (k : A -> M B) : M B :=
  fun s => match m s with
           | (Ok a, s') => k a s'
           | (Err e, s') => (Err e, s')
           end.
Definition throw {A} (e : Exn) : M A := fun s => (Err e, s).
Definition modify (f : St -> St) : M unit := fun s => (Ok tt, f s).
Definition gets {A} (f : St -> A) : M A := fun s => (Ok (f s), s).

Notation "x <- m ;; k" := (bind m (fun x => k))
  (at level 61, m at next level, right associativity).
Notation "m ;;; k" := (bind m (fun _ => k))
  (at level 61, right associativity).

(** ** The hook *)

(** [handleCleanupObj(cleanupRef.current)]:
<<
  const { cleanup, isCalled } = cleanupObj;
  if (!isCalled && typeof cleanup === 'function') {
    cleanupObj.isCalled = true;
    cleanup();
  }
>> *)
Definition handleCleanupObj : M unit :=
  fun s =>
    let o := cleanupRef s in
    if negb (isCalled o) then
      match cleanup o with
      | Some a =>
          let s1 := set_cleanupRef (mkSlot (slot_id o) (Some a) true) s in
          let s2 := emit (EvFire (slot_id o) a) s1 in
          if action_throws a then (Err (ExnAction a), s2) else (Ok tt, s2)
      | None => (Ok tt, s)
      end
    else (Ok tt, s).

(** [cleanupRef.current = { cleanup, isCalled: false }]: a fresh object. *)
Definition store_cleanup (c : option Action) : M unit :=
  modify (fun s => set_next_obj (S (next_obj s))
                     (set_cleanupRef (mkSlot (next_obj s) c false) s)).

(** [callback(...args)]. *)
Definition call_op (op : Operation) (args : list nat) : M ReturnValue :=
  fun s =>
    let s1 := set_op_calls (S (op_calls s)) (emit (EvOp (op_id op)) s) in
    match op_run op args (op_calls s) with
    | Returns r => (Ok r, s1)
    | Throws e => (Err (ExnOp e), s1)
    end.

(** [if (optionsRef.current.cleanUpOnCall) handleCleanupObj(cleanupRef.current);] *)
Definition cleanup_previous_call : M unit :=
  o <- gets optionsRef ;;
  if cleanUpOnCall o then handleCleanupObj else ret tt.

(** The dispatch on [returnValue]:
<<
  if (typeof returnValue === 'object') {
    const { value, cleanup } = returnValue;
    cleanupRef.current = { cleanup, isCalled: false };
    return value;
  } else if (typeof returnValue === 'function') {
    cleanupRef.current = { cleanup: returnValue, isCalled: false };
  }
  return returnValue;
>> *)
Definition handle_return (returnValue : ReturnValue) : M Val :=
  match returnValue with
  | RObject value c => store_cleanup c ;;; ret (VValue value)
  | RFunction a => store_cleanup (Some a) ;;; ret (VFunction a)
  | RUndefined => ret VUndefined
  end.

(** The body of [outputCallback], closed over [callback]. *)
Definition outputCallback (callback : Operation) (args : list nat) : M Val :=
  cleanup_previous_call ;;;
  returnValue <- call_op callback args ;;
  handle_return returnValue.

(** ** The host: React's hooks around the hook body *)

(** Errors thrown by an effect's destroy function are caught by React's
    commit phase and routed to an error boundary; the hook's state keeps
    whatever the destroy function did before throwing. *)
Definition run_teardown (m : M unit) (s : St) : St := snd (m s).

(** [useEffect(() => () => { if (optionsRef.current.cleanUpOnDepsChange)
      handleCleanupObj(cleanupRef.current); }, [deps])]: the destroy. *)
Definition deps_teardown : M unit :=
  o <- gets optionsRef ;;
  if cleanUpOnDepsChange o then handleCleanupObj else ret tt.

(** [useEffect(() => () => { if (optionsRef.current.cleanUpOnUnmount)
      handleCleanupObj(cleanupRef.current); }, [])]: the destroy. *)
Definition unmount_teardown : M unit :=
  o <- gets optionsRef ;;
  if cleanUpOnUnmount o then handleCleanupObj else ret tt.

(** The memoisation primitive's comparison of dependency keys: same
    length, pairwise equal. *)
Fixpoint deps_equal (a b : list nat) : bool :=
  match a, b with
  | [], [] => true
  | x :: a', y :: b' => Nat.eqb x y && deps_equal a' b'
  | _, _ => false
  end.

(** First render and commit: [useRef({ cleanup: null, isCalled: false })],
    [useRef(options)], [useCallback] storing a new closure, and the
    effects registered. *)
Definition mount (op : Operation) (deps : DepsArray) (opts : Options) : St :=
  mkSt (mkSlot 0 None false) opts (arr_items deps) (mkClosure 0 op)
    (arr_id deps) true 1 1 0 [].

(** A re-render with [(callback, deps, options)] and its commit.
    [useCallback(fn, deps)] keeps the stored closure when the items of
    [deps] equal the stored ones.  [useEffect(..., [deps])] compares its
    single dependency, the [deps] array object, with [Object.is]; when it
    differs its destroy runs.  React runs all destroy functions of a
    commit before the create functions, so that destroy reads the options
    of the previous commit; then [optionsRef.current = options]. *)
Definition render (op : Operation) (deps : DepsArray) (opts : Options)
    (s : St) : St :=
  if negb (mounted s) then s else
  let s1 :=
    if deps_equal (arr_items deps) (memo_deps s) then s
    else set_next_fn (S (next_fn s))
           (set_memo (arr_items deps) (mkClosure (next_fn s) op) s) in
  let s2 :=
    if Nat.eqb (arr_id deps) (deps_effect_dep s1) then s1
    else set_deps_effect_dep (arr_id deps) (run_teardown deps_teardown s1) in
  set_optionsRef opts s2.

(** Calling [result.current(...args)]: the memoised output callback. *)
Definition invoke (args : list nat) : M Val :=
  fun s => outputCallback (cl_op (memo_cb s)) args s.

(** Unmount: the destroy functions of both effects, in declaration order. *)
Definition unmount (s : St) : St :=
  if negb (mounted s) then s else
  set_mounted false
    (run_teardown unmount_teardown (run_teardown deps_teardown s)).

Inductive HostStep : Type :=
| Render (op : Operation) (deps : DepsArray) (opts : Options)
| Invoke (args : list nat)
| Unmount.

Definition step (h : HostStep) (s : St) : St :=
  match h with
  | Render op deps opts => render op deps opts s
  | Invoke args => snd (invoke args s)
  | Unmount => unmount s
  end.

Fixpoint run (hs : list HostStep) (s : St) : St :=
  match hs with
  | [] => s
  | h :: hs' => run hs' (step h s)
  end.

(** Number of times the cleanup stored in ref object [g] was called. *)
Fixpoint fires_of (g : nat) (t : list Event) : nat :=
  match t with
  | [] => 0
  | EvFire g' _ :: t' => (if Nat.eqb g g' then 1 else 0) + fires_of g t'
  | EvOp _ :: t' => fires_of g t'
  end.

(** The fired actions of a trace, in order. *)
Fixpoint fired (t : list Event) : list Action :=
  match t with
  | [] => []
  | EvFire _ a :: t' => a :: fired t'
  | EvOp _ :: t' => fired t'
  end.

(** A slot holds a pending action: a function not yet called. *)
Definition pending (o : Slot) : bool :=
  negb (isCalled o) && match cleanup o with Some _ => true | None => false end.

(** ** Scenarios from the test suite *)

(** An operation returning a fresh cleanup [Act n false] on its [n]th
    call. *)
Definition fresh_release_op : Operation :=
  mkOperation 7 (fun _ n => Returns (RFunction (Act n false))).

(** Options with only [cleanUpOnDepsChange] changed from the default. *)
Definition deps_change_options : Options := mkOptions true true true.

(** An operation that always returns the same cleanup. *)
Definition constant_release_op : Operation :=
  mkOperation 3 (fun _ _ => Returns (RFunction (Act 0 false))).

(** An operation that stores a cleanup on its first call and returns
    [undefined] afterwards. *)
Definition release_then_undefined_op : Operation :=
  mkOperation 5 (fun _ n => match n with
                            | 0 => Returns (RFunction (Act 0 false))
                            | _ => Returns RUndefined
                            end).

Definition no_call_options : Options := mkOptions false false true.

(** A state in which [cleanUpOnCall] holds and a cleanup is pending. *)
Definition pending_state : St :=
  snd (invoke [] (mount release_then_undefined_op (mkDeps 1 [])
                    default_options)).

(** The first test of the suite: a callback swapped in without a key
    change is not the one that runs. *)
Definition first_input_op : Operation :=
  mkOperation 1 (fun _ _ => Returns RUndefined).
Definition second_input_op : Operation :=
  mkOperation 2 (fun _ _ => Returns RUndefined).

(** An operation returning [{ value: 11, cleanup }] on every call. *)
Definition object_op : Operation :=
  mkOperation 4 (fun _ _ => Returns (RObject 11 (Some (Act 0 false)))).

(** The second invocation of the object-notation test. *)
Definition object_state : St :=
  snd (invoke [] (mount object_op (mkDeps 1 []) default_options)).

(** An operation that stores a cleanup on its first call and throws on
    every later call. *)
Definition release_then_throw_op : Operation :=
  mkOperation 6 (fun _ n => match n with
                            | 0 => Returns (RFunction (Act 0 false))
                            | _ => Throws 99
                            end).

Definition throwing_state : St :=
  snd (invoke [] (mount release_then_throw_op (mkDeps 1 []) default_options)).

Definition first_call_state : St :=
  mount fresh_release_op (mkDeps 1 []) default_options.

Definition throwing_cleanup_op : Operation :=
  mkOperation 8 (fun _ _ => Returns (RFunction (Act 0 true))).

Definition throwing_cleanup_state : St :=
  snd (invoke [] (mount throwing_cleanup_op (mkDeps 1 []) default_options)).

Definition object_without_cleanup_op : Operation :=
  mkOperation 9 (fun _ n => match n with
                            | 0 => Returns (RFunction (Act 0 false))
                            | _ => Returns (RObject 3 None)
                            end).

Definition no_call_pending_state : St :=
  snd (invoke [] (mount object_without_cleanup_op (mkDeps 1 []) no_call_options)).

(** ** Earlier versions of the hook

    Two earlier versions keep the cleanup itself in the ref, with no
    [isCalled] flag and no options, and call it through
    [executeIfFunction(arg) { if (typeof arg === 'function') arg(); }]. *)

(** Observable events of the earlier versions. *)
Inductive LEvent : Type :=
| LOp (opid : nat)     (* the user callback is called *)
| LFire (a : Action).  (* a cleanup body is called *)

(** [src/src/index.ts]: the callback's return value is stored as is. *)
Module IndexV1.

(** [cleanupCallback = useRef<CleanupCallback | null>(null)]: [None] is
    the initial [null], [Some r] the last value the callback returned. *)
Record St1 : Type := mkSt1 {
  cleanupCallback : option ReturnValue;
  calls : nat;
  events : list LEvent
}.

Definition init : St1 := mkSt1 None 0 [].

Definition executeIfFunction (arg : option ReturnValue) (s : St1)
    : Res unit * St1 :=
  match arg with
  | Some (RFunction a) =>
      let s' := mkSt1 (cleanupCallback s) (calls s) (events s ++ [LFire a]) in
      if action_throws a then (Err (ExnAction a), s') else (Ok tt, s')
  | _ => (Ok tt, s)
  end.

(** [outputCallback]:
<<
  executeIfFunction(cleanupCallback.current);
  const returnValue = callback(...args);
  cleanupCallback.current = returnValue;
  return returnValue;
>> *)
Definition outputCallback (callback : Operation) (args : list nat) (s : St1)
    : Res ReturnValue * St1 :=
  match executeIfFunction (cleanupCallback s) s with
  | (Err e, s1) => (Err e, s1)
  | (Ok _, s1) =>
      let s2 := mkSt1 (cleanupCallback s1) (S (calls s1))
                  (events s1 ++ [LOp (op_id callback)]) in
      match op_run callback args (calls s1) with
      | Throws e => (Err (ExnOp e), s2)
      | Returns returnValue =>
          (Ok returnValue, mkSt1 (Some returnValue) (calls s2) (events s2))
      end
  end.

(** The destroy of [useEffect(() => () => executeIfFunction(...), [])]. *)
Definition unmount_destroy (s : St1) : St1 :=
  snd (executeIfFunction (cleanupCallback s) s).

End IndexV1.

(** [src/unnamed/part_000] and the first file of [src/unnamed/part_001]:
    object notation, with the cleanup itself stored in the ref. *)
Module ObjectV2.

(** [cleanupRef = useRef<Cleanup | null>(null)]: [None] is [null] or an
    [undefined] cleanup. *)
Record St2 : Type := mkSt2 {
  cleanupRef : option Action;
  calls : nat;
  events : list LEvent
}.

Definition init : St2 := mkSt2 None 0 [].

Definition executeIfFunction (arg : option Action) (s : St2) : Res unit * St2 :=
  match arg with
  | Some a =>
      let s' := mkSt2 (cleanupRef s) (calls s) (events s ++ [LFire a]) in
      if action_throws a then (Err (ExnAction a), s') else (Ok tt, s')
  | None => (Ok tt, s)
  end.

(** [outputCallback]:
<<
  executeIfFunction(cleanupRef.current);
  const returnValue = callback(...args);
  if (typeof returnValue === 'object') {
    const { value, cleanup } = returnValue;
    cleanupRef.current = cleanup;
    return value;
  } else if (typeof returnValue === 'function') {
    cleanupRef.current = returnValue;
  }
  return returnValue;
>> *)
Definition outputCallback (callback : Operation) (args : list nat) (s : St2)
    : Res Val * St2 :=
  match executeIfFunction (cleanupRef s) s with
  | (Err e, s1) => (Err e, s1)
  | (Ok _, s1) =>
      let s2 := mkSt2 (cleanupRef s1) (S (calls s1))
                  (events s1 ++ [LOp (op_id callback)]) in
      match op_run callback args (calls s1) with
      | Throws e => (Err (ExnOp e), s2)
      | Returns (RObject value c) =>
          (Ok (VValue value), mkSt2 c (calls s2) (events s2))
      | Returns (RFunction a) =>
          (Ok (VFunction a), mkSt2 (Some a) (calls s2) (events s2))
      | Returns RUndefined => (Ok VUndefined, s2)
      end
  end.

Definition unmount_destroy (s : St2) : St2 :=
  snd (executeIfFunction (cleanupRef s) s).

(** [n] successive calls of the output callback with no arguments. *)
Fixpoint invokes (n : nat) (callback : Operation) (s : St2) : St2 :=
  match n with
  | 0 => s
  | S n' => invokes n' callback (snd (outputCallback callback [] s))
  end.

End ObjectV2.

(** Callbacks used with the earlier versions. *)
Definition v1_undefined_op : Operation :=
  mkOperation 10 (fun _ _ => Returns RUndefined).

Definition v1_throwing_op : Operation :=
  mkOperation 11 (fun _ _ => Throws 0).

(** ** Definitions used by the proofs *)

(** Each ref object's cleanup has been called at most once; objects not
    yet allocated have never fired; and the current object, while not
    marked called, has never fired. *)
Definition Inv (s : St) : Prop :=
  (forall g, fires_of g (trace s) <= 1) /\
  (forall g, next_obj s <= g -> fires_of g (trace s) = 0) /\
  slot_id (cleanupRef s) < next_obj s /\
  (isCalled (cleanupRef s) = false ->
   fires_of (slot_id (cleanupRef s)) (trace s) = 0).

Definition preserves {A} (m : M A) : Prop :=
  forall s, Inv s -> Inv (snd (m s)).

(** The hook's own steps (cleanups, callback calls, ref assignments) do
    not touch the memoised callback, its deps, the options ref or the
    mount status. *)
Definition frame (s s' : St) : Prop :=
  memo_cb s' = memo_cb s /\ memo_deps s' = memo_deps s /\
  next_fn s' = next_fn s /\ mounted s' = mounted s /\
  optionsRef s' = optionsRef s.

Definition keeps {A} (m : M A) : Prop := forall s, frame s (snd (m s)).

(** A host step that, if it is a re-render, passes a key equal to [k]. *)
Definition renders_with_key (k : list nat) (h : HostStep) : Prop :=
  match h with
  | Render _ d _ => deps_equal (arr_items d) k = true
  | _ => True
  end.

(** The cleanup a callback outcome hands to the hook, if any. *)
Definition released (r : OpOutcome) : option Action :=
  match r with
  | Returns (RFunction a) => Some a
  | Returns (RObject _ c) => c
  | _ => None
  end.

(** A user callback that returns a cleanup on every call. *)
Definition arms (op : Operation) : Prop :=
  forall args n, released (op_run op args n) <> None.

(** The event a call of [handleCleanupObj] on object [o] emits when
    its guard [b] (an option read) holds. *)
Definition fire_if (b : bool) (o : Slot) : list Event :=
  match cleanup o with
  | Some a => if b && negb (isCalled o) then [EvFire (slot_id o) a] else []
  | None => []
  end.

(** ** At-most-once firing: an invariant of every reachable state *)

Lemma fires_of_app (g : nat) (t1 t2 : list Event) :
  fires_of g (t1 ++ t2) = fires_of g t1 + fires_of g t2.
Proof.
  induction t1 as [|[op|g' a] t1 IH]; simpl; [reflexivity| |]; lia.
Qed.

Lemma ret_preserves {A} (a : A) : preserves (ret a).
Proof. intros s H; exact H. Qed.

Lemma gets_preserves {A} (f : St -> A) : preserves (gets f).
Proof. intros s H; exact H. Qed.

Lemma bind_preserves {A B} (m : M A) (k : A -> M B) :
  preserves m -> (forall a, preserves (k a)) -> preserves (bind m k).
Proof.
  intros Hm Hk s Hs. unfold bind.
  specialize (Hm s Hs).
  destruct (m s) as [[a|e] s'] eqn:E; simpl in *; [apply Hk|]; exact Hm.
Qed.

Lemma if_preserves {A} (b : bool) (m1 m2 : M A) :
  preserves m1 -> preserves m2 -> preserves (if b then m1 else m2).
Proof. destruct b; auto. Qed.

Lemma handleCleanupObj_preserves : preserves handleCleanupObj.
Proof.
  intros s Hs. unfold handleCleanupObj.
  destruct (isCalled (cleanupRef s)) eqn:Ec; simpl; [exact Hs|].
  destruct (cleanup (cleanupRef s)) as [a|]; [|exact Hs].
  destruct Hs as (H1 & H2 & H3 & H4).
  assert (Hinv : Inv (emit (EvFire (slot_id (cleanupRef s)) a)
             (set_cleanupRef (mkSlot (slot_id (cleanupRef s)) (Some a) true) s))).
  { unfold Inv, emit, set_cleanupRef; simpl.
    specialize (H4 Ec).
    repeat split.
    - intro g. rewrite fires_of_app. simpl.
      destruct (Nat.eqb_spec g (slot_id (cleanupRef s))) as [->|Hne].
      + rewrite H4. lia.
      + specialize (H1 g). lia.
    - intros g Hg. rewrite fires_of_app. simpl.
      destruct (Nat.eqb_spec g (slot_id (cleanupRef s))) as [->|Hne]; [lia|].
      rewrite (H2 g Hg). reflexivity.
    - exact H3.
    - discriminate. }
  destruct (action_throws a); exact Hinv.
Qed.

Lemma store_cleanup_preserves (c : option Action) :
  preserves (store_cleanup c).
Proof.
  intros s (H1 & H2 & H3 & H4).
  unfold store_cleanup, modify, Inv, set_next_obj, set_cleanupRef; simpl.
  repeat split.
  - exact H1.
  - intros g Hg. apply H2. lia.
  - lia.
  - intros _. apply H2. lia.
Qed.

Lemma call_op_preserves (op : Operation) (args : list nat) :
  preserves (call_op op args).
Proof.
  intros s (H1 & H2 & H3 & H4).
  assert (Hinv : Inv (set_op_calls (S (op_calls s)) (emit (EvOp (op_id op)) s))).
  { unfold Inv, set_op_calls, emit; simpl.
    repeat split; intros; rewrite ?fires_of_app; simpl; rewrite ?Nat.add_0_r;
      auto. }
  unfold call_op. destruct (op_run op args (op_calls s)); exact Hinv.
Qed.

Create HintDb preserves.
#[local] Hint Resolve ret_preserves gets_preserves bind_preserves if_preserves
  handleCleanupObj_preserves store_cleanup_preserves call_op_preserves
  : preserves.

Lemma outputCallback_preserves (op : Operation) (args : list nat) :
  preserves (outputCallback op args).
Proof.
  unfold outputCallback, cleanup_previous_call.
  apply bind_preserves; [apply bind_preserves; auto with preserves|intros _].
  apply bind_preserves; [auto with preserves|intros [|a|v c]];
    unfold handle_return; auto with preserves.
Qed.

Lemma invoke_preserves (args : list nat) : preserves (invoke args).
Proof. intros s Hs. apply (outputCallback_preserves _ _ s Hs). Qed.

Lemma run_teardown_preserves (m : M unit) (s : St) :
  preserves m -> Inv s -> Inv (run_teardown m s).
Proof. intros Hm Hs. apply Hm, Hs. Qed.

Lemma deps_teardown_preserves : preserves deps_teardown.
Proof.
  unfold deps_teardown. apply bind_preserves; auto with preserves.
Qed.

Lemma unmount_teardown_preserves : preserves unmount_teardown.
Proof.
  unfold unmount_teardown. apply bind_preserves; auto with preserves.
Qed.

Lemma step_preserves (h : HostStep) (s : St) : Inv s -> Inv (step h s).
Proof.
  intros Hs. destruct h as [op deps opts|args|]; simpl.
  - unfold render. destruct (mounted s); simpl; [|exact Hs].
    set (s1 := if deps_equal (arr_items deps) (memo_deps s) then s
               else set_next_fn (S (next_fn s))
                      (set_memo (arr_items deps) (mkClosure (next_fn s) op) s)).
    assert (H1 : Inv s1).
    { subst s1. destruct (deps_equal _ _); [exact Hs|].
      destruct Hs as (? & ? & ? & ?).
      unfold Inv, set_next_fn, set_memo; simpl; auto. }
    assert (H2 : Inv (if Nat.eqb (arr_id deps) (deps_effect_dep s1) then s1
              else set_deps_effect_dep (arr_id deps)
                     (run_teardown deps_teardown s1))).
    { destruct (Nat.eqb _ _); [exact H1|].
      pose proof (run_teardown_preserves _ _ deps_teardown_preserves H1)
        as (? & ? & ? & ?).
      unfold Inv, set_deps_effect_dep; simpl; auto. }
    destruct H2 as (? & ? & ? & ?).
    unfold Inv, set_optionsRef; simpl; auto.
  - apply invoke_preserves, Hs.
  - unfold unmount. destruct (mounted s); simpl; [|exact Hs].
    pose proof (run_teardown_preserves _ _ unmount_teardown_preserves
                  (run_teardown_preserves _ _ deps_teardown_preserves Hs))
      as (? & ? & ? & ?).
    unfold Inv, set_mounted; simpl; auto.
Qed.

Lemma run_preserves (hs : list HostStep) (s : St) : Inv s -> Inv (run hs s).
Proof.
  revert s. induction hs as [|h hs IH]; intros s Hs; simpl; auto.
  apply IH, step_preserves, Hs.
Qed.

Lemma mount_Inv (op : Operation) (deps : DepsArray) (opts : Options) :
  Inv (mount op deps opts).
Proof. unfold Inv, mount; simpl; repeat split; auto; lia. Qed.

(** ** What the hook body leaves untouched *)

Lemma frame_refl (s : St) : frame s s.
Proof. unfold frame; auto 10. Qed.

Lemma frame_trans (s1 s2 s3 : St) : frame s1 s2 -> frame s2 s3 -> frame s1 s3.
Proof.
  unfold frame; intros (? & ? & ? & ? & ?) (? & ? & ? & ? & ?).
  repeat split; congruence.
Qed.

Lemma bind_keeps {A B} (m : M A) (k : A -> M B) :
  keeps m -> (forall a, keeps (k a)) -> keeps (bind m k).
Proof.
  intros Hm Hk s. unfold bind. specialize (Hm s).
  destruct (m s) as [[a|e] s'] eqn:E; simpl in *; [|exact Hm].
  exact (frame_trans _ _ _ Hm (Hk a s')).
Qed.

Lemma handleCleanupObj_keeps : keeps handleCleanupObj.
Proof.
  intro s. unfold handleCleanupObj.
  destruct (isCalled (cleanupRef s)); simpl; [apply frame_refl|].
  destruct (cleanup (cleanupRef s)) as [a|]; [|apply frame_refl].
  destruct (action_throws a); unfold frame; simpl; auto 10.
Qed.

Lemma outputCallback_keeps (op : Operation) (args : list nat) :
  keeps (outputCallback op args).
Proof.
  unfold outputCallback, cleanup_previous_call.
  apply bind_keeps; [apply bind_keeps|].
  - intro s; apply frame_refl.
  - intros o; destruct (cleanUpOnCall o);
      [apply handleCleanupObj_keeps|intro s; apply frame_refl].
  - intros _. apply bind_keeps.
    + intro s. unfold call_op.
      destruct (op_run op args (op_calls s)); unfold frame; simpl; auto 10.
    + intros [|a|v c]; intro s; unfold handle_return, frame; simpl; auto 10.
Qed.

Lemma deps_teardown_keeps : keeps deps_teardown.
Proof.
  unfold deps_teardown. apply bind_keeps; [intro s; apply frame_refl|].
  intros o; destruct (cleanUpOnDepsChange o);
    [apply handleCleanupObj_keeps|intro s; apply frame_refl].
Qed.

Lemma unmount_teardown_keeps : keeps unmount_teardown.
Proof.
  unfold unmount_teardown. apply bind_keeps; [intro s; apply frame_refl|].
  intros o; destruct (cleanUpOnUnmount o);
    [apply handleCleanupObj_keeps|intro s; apply frame_refl].
Qed.

(** How a re-render changes [useCallback]'s stored closure. *)
Lemma render_memo (op : Operation) (deps : DepsArray) (opts : Options)
    (s : St) :
  let changed := mounted s && negb (deps_equal (arr_items deps) (memo_deps s)) in
  memo_cb (render op deps opts s)
    = (if changed then mkClosure (next_fn s) op else memo_cb s) /\
  memo_deps (render op deps opts s)
    = (if changed then arr_items deps else memo_deps s) /\
  next_fn (render op deps opts s)
    = (if changed then S (next_fn s) else next_fn s).
Proof.
  unfold render. destruct (mounted s); simpl; [|auto].
  set (s1 := if deps_equal (arr_items deps) (memo_deps s) then s
             else set_next_fn (S (next_fn s))
                    (set_memo (arr_items deps) (mkClosure (next_fn s) op) s)).
  assert (F : frame s1 (if Nat.eqb (arr_id deps) (deps_effect_dep s1) then s1
              else set_deps_effect_dep (arr_id deps)
                     (run_teardown deps_teardown s1))).
  { destruct (Nat.eqb _ _); [apply frame_refl|].
    destruct (deps_teardown_keeps s1) as (? & ? & ? & ? & ?).
    unfold frame, set_deps_effect_dep, run_teardown; cbn [memo_cb memo_deps
      next_fn mounted optionsRef]; auto. }
  destruct F as (F1 & F2 & F3 & _).
  unfold set_optionsRef; cbn [memo_cb memo_deps next_fn].
  rewrite F1, F2, F3. subst s1.
  destruct (deps_equal (arr_items deps) (memo_deps s)); simpl; auto.
Qed.

(** The memoised closure's identity was allocated before [next_fn]. *)
Lemma step_closure_allocated (h : HostStep) (s : St) :
  cl_id (memo_cb s) < next_fn s -> cl_id (memo_cb (step h s)) < next_fn (step h s).
Proof.
  intro H. destruct h as [op deps opts|args|]; simpl.
  - destruct (render_memo op deps opts s) as (-> & _ & ->).
    destruct (mounted s && negb _); simpl; lia.
  - destruct (outputCallback_keeps (cl_op (memo_cb s)) args s) as (E1 & _ & E2 & _).
    unfold invoke. rewrite E1, E2. exact H.
  - unfold unmount. destruct (mounted s); simpl; [|exact H].
    unfold run_teardown.
    destruct (unmount_teardown_keeps (snd (deps_teardown s))) as (-> & _ & -> & _).
    destruct (deps_teardown_keeps s) as (-> & _ & -> & _).
    exact H.
Qed.

Lemma run_closure_allocated (hs : list HostStep) (s : St) :
  cl_id (memo_cb s) < next_fn s ->
  cl_id (memo_cb (run hs s)) < next_fn (run hs s).
Proof.
  revert s; induction hs as [|h hs IH]; intros s H; simpl; [exact H|].
  apply IH, step_closure_allocated, H.
Qed.

Lemma step_keeps_memo (h : HostStep) (s : St) :
  renders_with_key (memo_deps s) h ->
  memo_cb (step h s) = memo_cb s /\ memo_deps (step h s) = memo_deps s.
Proof.
  destruct h as [op deps opts|args|]; simpl; intro Hk.
  - destruct (render_memo op deps opts s) as (-> & -> & _).
    rewrite Hk, andb_false_r. auto.
  - destruct (outputCallback_keeps (cl_op (memo_cb s)) args s) as (E1 & E2 & _).
    unfold invoke. auto.
  - unfold unmount. destruct (mounted s); simpl; [|auto].
    unfold run_teardown.
    destruct (unmount_teardown_keeps (snd (deps_teardown s))) as (-> & -> & _).
    destruct (deps_teardown_keeps s) as (-> & -> & _).
    auto.
Qed.

Lemma run_keeps_memo (hs : list HostStep) (s : St) :
  Forall (renders_with_key (memo_deps s)) hs ->
  memo_cb (run hs s) = memo_cb s /\ memo_deps (run hs s) = memo_deps s.
Proof.
  revert s; induction hs as [|h hs IH]; intros s Hall; simpl; [auto|].
  inversion Hall as [|? ? Hh Hrest]; subst.
  destruct (step_keeps_memo h s Hh) as (E1 & E2).
  rewrite <- E2 in Hrest.
  destruct (IH (step h s) Hrest) as (-> & ->). auto.
Qed.

(** ** One invocation, step by step *)

(** Step 1 (the [cleanUpOnCall] cleanup), when it does not throw, only
    touches the current ref object: with the option set it leaves no
    pending cleanup, without it nothing changes. *)
Lemma cleanup_previous_call_effect (s : St) :
  fst (cleanup_previous_call s) = Ok tt ->
  let s1 := snd (cleanup_previous_call s) in
  op_calls s1 = op_calls s /\ next_obj s1 = next_obj s /\
  memo_cb s1 = memo_cb s /\
  (cleanUpOnCall (optionsRef s) = true -> pending (cleanupRef s1) = false) /\
  (cleanUpOnCall (optionsRef s) = false -> s1 = s).
Proof.
  unfold cleanup_previous_call, bind, gets, handleCleanupObj; cbn beta iota.
  destruct (cleanUpOnCall (optionsRef s)).
  - destruct (isCalled (cleanupRef s)) eqn:Ei;
      destruct (cleanup (cleanupRef s)) as [a|] eqn:Ea;
      try destruct (action_throws a); simpl; intros H; try discriminate;
      unfold pending; simpl; rewrite ?Ei, ?Ea, ?andb_false_r;
      repeat split; intros; first [discriminate | reflexivity].
  - intros _. repeat split; intros; first [discriminate | reflexivity].
Qed.

Lemma invoke_after_step1 (s : St) (args : list nat) :
  fst (cleanup_previous_call s) = Ok tt ->
  invoke args s
  = bind (call_op (cl_op (memo_cb s)) args) handle_return
      (snd (cleanup_previous_call s)).
Proof.
  intro H. unfold invoke, outputCallback. unfold bind at 1.
  destruct (cleanup_previous_call s) as [[[]|e] s1]; simpl in H;
    [reflexivity|discriminate].
Qed.

(** Open an invocation whose step 1 did not throw: [s1] is the state
    after step 1, and the user callback is called at [op_calls s]. *)
Ltac open_invoke s args Hstep1 Hop :=
  rewrite (invoke_after_step1 s args Hstep1);
  pose proof (cleanup_previous_call_effect s Hstep1)
    as (Hoc & Hno & Hmc & Hon & Hoff);
  set (s1 := snd (cleanup_previous_call s)) in *;
  unfold call_op, bind; rewrite Hoc, Hop; simpl.

(** ** Invocations and unmount without [cleanUpOnCall] *)

Lemma fired_app (t1 t2 : list Event) : fired (t1 ++ t2) = fired t1 ++ fired t2.
Proof.
  induction t1 as [|[op|g a] t1 IH]; simpl; [reflexivity|exact IH|].
  rewrite IH; reflexivity.
Qed.

Lemma run_app (hs1 hs2 : list HostStep) (s : St) :
  run (hs1 ++ hs2) s = run hs2 (run hs1 s).
Proof. revert s; induction hs1 as [|h hs1 IH]; intro s; simpl; auto. Qed.

Lemma invoke_arming_no_call (s : St) (args : list nat) (a : Action) :
  cleanUpOnCall (optionsRef s) = false ->
  released (op_run (cl_op (memo_cb s)) args (op_calls s)) = Some a ->
  let s' := snd (invoke args s) in
  fired (trace s') = fired (trace s) /\ optionsRef s' = optionsRef s /\
  memo_cb s' = memo_cb s /\ mounted s' = mounted s /\
  op_calls s' = S (op_calls s) /\
  cleanupRef s' = mkSlot (next_obj s) (Some a) false.
Proof.
  intros Hoffc Hrel.
  assert (Hstep1 : fst (cleanup_previous_call s) = Ok tt).
  { unfold cleanup_previous_call, bind, gets. simpl. rewrite Hoffc. reflexivity. }
  destruct (op_run (cl_op (memo_cb s)) args (op_calls s)) as [[|a'|v c]|e]
    eqn:Hop; simpl in Hrel; try discriminate;
    [injection Hrel as <-|subst c];
    open_invoke s args Hstep1 Hop;
    clearbody s1; rewrite (Hoff Hoffc);
    unfold store_cleanup, modify, set_next_obj, set_cleanupRef, set_op_calls,
      emit; simpl; rewrite fired_app, app_nil_r; auto 10.
Qed.

Lemma invokes_arming_no_call (argss : list (list nat)) (s : St) :
  cleanUpOnCall (optionsRef s) = false -> arms (cl_op (memo_cb s)) ->
  let s' := run (map Invoke argss) s in
  fired (trace s') = fired (trace s) /\ optionsRef s' = optionsRef s /\
  memo_cb s' = memo_cb s /\ mounted s' = mounted s /\
  op_calls s' = op_calls s + length argss.
Proof.
  revert s; induction argss as [|args argss IH]; intros s Hoffc Harms;
    simpl; [auto|].
  destruct (released (op_run (cl_op (memo_cb s)) args (op_calls s)))
    as [a|] eqn:Hrel; [|exfalso; exact (Harms _ _ Hrel)].
  destruct (invoke_arming_no_call s args a Hoffc Hrel)
    as (F & O & C & Mo & N & _).
  rewrite <- O in Hoffc. rewrite <- C in Harms.
  destruct (IH _ Hoffc Harms) as (F' & O' & C' & Mo' & N').
  repeat split; congruence || lia.
Qed.

Lemma unmount_fires_current (s : St) (b : bool) (g : nat) (a : Action) :
  mounted s = true -> optionsRef s = mkOptions b false true ->
  cleanupRef s = mkSlot g (Some a) false ->
  trace (unmount s) = trace s ++ [EvFire g a].
Proof.
  intros Hm Ho Hc.
  unfold unmount, run_teardown, deps_teardown, unmount_teardown, bind, gets.
  rewrite Hm, Ho. simpl. rewrite Ho. simpl.
  unfold handleCleanupObj. rewrite Hc. simpl.
  destruct (action_throws a); reflexivity.
Qed.

(** ** The claims *)

(** C1 (at-most-once firing).  Whatever the host does (re-renders with
    any callbacks, keys and options, invocations, unmount with both
    teardowns), and whether or not cleanups throw, the cleanup stored by
    any single assignment [cleanupRef.current = { cleanup, isCalled: false }]
    is called at most once; and a cleanup that throws has already been
    marked called, so it is never retried. *)
Theorem cleanup_fires_at_most_once
    (op : Operation) (deps : DepsArray) (opts : Options)
    (hs : list HostStep) :
  (forall g, fires_of g (trace (run hs (mount op deps opts))) <= 1) /\
  (forall s, match handleCleanupObj s with
             | (Err _, s') => isCalled (cleanupRef s') = true
             | (Ok _, _) => True
             end).
Proof.
  split.
  - intro g. apply (run_preserves hs _ (mount_Inv op deps opts)).
  - intro s. unfold handleCleanupObj.
    destruct (isCalled (cleanupRef s)); simpl; [exact I|].
    destruct (cleanup (cleanupRef s)) as [a|]; [|exact I].
    destruct (action_throws a); reflexivity.
Qed.

(** C2 (default options, scenario 1).  With the default options and an
    operation returning a fresh cleanup [cN] on its [N]th call, three
    invocations and an unmount produce exactly this sequence of events:
    each [cN] fires once, [c0] and [c1] after the call that stored them
    and strictly before the next operation call, and [c2] at unmount. *)
Theorem default_options_fire_order (deps : DepsArray) :
  trace (run [Invoke []; Invoke []; Invoke []; Unmount]
           (mount fresh_release_op deps default_options))
  = [EvOp 7; EvFire 1 (Act 0 false);
     EvOp 7; EvFire 2 (Act 1 false);
     EvOp 7; EvFire 3 (Act 2 false)].
Proof. reflexivity. Qed.

(** C3 (deps-change teardown).  The effect is registered with [[deps]], so
    React compares the deps array object itself: a re-render that passes a
    fresh array with equal items (the usual inline [[dep]]) keeps the same
    memoised callback but runs the deps-change teardown, which fires the
    pending cleanup although the dependency key did not change. *)
Theorem deps_teardown_fires_on_equal_key :
  let s := snd (invoke [] (mount constant_release_op (mkDeps 1 [42])
                            deps_change_options)) in
  let s' := render constant_release_op (mkDeps 2 [42]) deps_change_options s in
  deps_equal [42] (memo_deps s) = true /\
  memo_cb s' = memo_cb s /\
  fired (trace s) = [] /\
  fired (trace s') = [Act 0 false].
Proof. repeat split; reflexivity. Qed.

(** C4, counterexample.  With [cleanUpOnCall = false], an invocation whose
    operation returns [undefined] leaves the previous object in
    [cleanupRef]: its cleanup is still pending after that invocation, and
    the unmount fires it. *)
Lemma undefined_result_keeps_pending_cleanup :
  let s := run [Invoke []; Invoke []]
             (mount release_then_undefined_op (mkDeps 1 []) no_call_options) in
  fst (invoke [] (run [Invoke []]
             (mount release_then_undefined_op (mkDeps 1 []) no_call_options)))
    = Ok VUndefined /\
  pending (cleanupRef s) = true /\
  fired (trace s) = [] /\
  fired (trace (unmount s)) = [Act 0 false].
Proof. repeat split; reflexivity. Qed.

(** C4, amended.  When the operation returns [undefined], the output
    callback does not assign [cleanupRef.current]: the slot is exactly as
    step 1 left it and no object is allocated.  So with [cleanUpOnCall]
    set, no cleanup is pending afterwards; without it, the slot is the
    one from before the invocation. *)
Theorem undefined_result_leaves_slot (s : St) (args : list nat)
    (Hop : op_run (cl_op (memo_cb s)) args (op_calls s) = Returns RUndefined)
    (Hstep1 : fst (cleanup_previous_call s) = Ok tt) :
  let '(r, s') := invoke args s in
  r = Ok VUndefined /\
  cleanupRef s' = cleanupRef (snd (cleanup_previous_call s)) /\
  next_obj s' = next_obj s /\
  (cleanUpOnCall (optionsRef s) = true -> pending (cleanupRef s') = false) /\
  (cleanUpOnCall (optionsRef s) = false -> cleanupRef s' = cleanupRef s).
Proof.
  rewrite (invoke_after_step1 s args Hstep1).
  pose proof (cleanup_previous_call_effect s Hstep1)
    as (Hoc & Hno & _ & Hon & Hoff).
  set (s1 := snd (cleanup_previous_call s)) in *.
  unfold call_op, bind. rewrite Hoc, Hop. simpl.
  repeat split; auto.
  intro H. rewrite (Hoff H). reflexivity.
Qed.

Lemma undefined_result_leaves_slot_witness :
  op_run (cl_op (memo_cb pending_state)) [] (op_calls pending_state)
    = Returns RUndefined /\
  fst (cleanup_previous_call pending_state) = Ok tt /\
  (let '(r, s') := invoke [] pending_state in
   r = Ok VUndefined /\
   cleanupRef s' = cleanupRef (snd (cleanup_previous_call pending_state)) /\
   next_obj s' = next_obj pending_state /\
   (cleanUpOnCall (optionsRef pending_state) = true ->
    pending (cleanupRef s') = false) /\
   (cleanUpOnCall (optionsRef pending_state) = false ->
    cleanupRef s' = cleanupRef pending_state)).
Proof.
  split; [reflexivity|]. split; [reflexivity|].
  apply undefined_result_leaves_slot; reflexivity.
Defined.

(** C5 (referential stability).  Across any re-renders whose key equals
    the stored one (whatever callback they pass) and any invocations or
    unmount in between, the output callback is the same closure, and
    invoking it runs the user callback it was first built with; a
    re-render of the mounted hook with a different key yields a closure
    with a new identity. *)
Theorem invoke_reference_stability
    (op : Operation) (deps : DepsArray) (opts : Options)
    (hs hs2 : list HostStep)
    (op' : Operation) (deps' : DepsArray) (opts' : Options) :
  let s := run hs (mount op deps opts) in
  (Forall (renders_with_key (memo_deps s)) hs2 ->
   memo_cb (run hs2 s) = memo_cb s /\
   (forall args, invoke args (run hs2 s)
                 = outputCallback (cl_op (memo_cb s)) args (run hs2 s))) /\
  (mounted s = true -> deps_equal (arr_items deps') (memo_deps s) = false ->
   cl_id (memo_cb (render op' deps' opts' s)) <> cl_id (memo_cb s)).
Proof.
  intro s. split.
  - intro Hall. destruct (run_keeps_memo hs2 s Hall) as (E & _).
    split; [exact E|]. intro args. unfold invoke. rewrite E. reflexivity.
  - intros Hm Hd.
    assert (Ha : cl_id (memo_cb s) < next_fn s).
    { apply run_closure_allocated. simpl. lia. }
    destruct (render_memo op' deps' opts' s) as (-> & _ & _).
    rewrite Hm, Hd. simpl. lia.
Qed.

Lemma invoke_reference_stability_witness :
  let s := run [Invoke []] (mount first_input_op (mkDeps 1 [9]) default_options) in
  Forall (renders_with_key (memo_deps s))
    [Render second_input_op (mkDeps 2 [9]) default_options] /\
  mounted s = true /\
  deps_equal (arr_items (mkDeps 3 [10])) (memo_deps s) = false /\
  memo_cb (run [Render second_input_op (mkDeps 2 [9]) default_options] s)
    = memo_cb s /\
  cl_id (memo_cb (render second_input_op (mkDeps 3 [10]) default_options s))
    <> cl_id (memo_cb s).
Proof.
  intro s.
  pose proof (invoke_reference_stability first_input_op (mkDeps 1 [9])
    default_options [Invoke []]
    [Render second_input_op (mkDeps 2 [9]) default_options]
    second_input_op (mkDeps 3 [10]) default_options) as [H1 H2].
  assert (Hall : Forall (renders_with_key (memo_deps s))
    [Render second_input_op (mkDeps 2 [9]) default_options]).
  { constructor; [reflexivity|constructor]. }
  split; [exact Hall|]. split; [reflexivity|]. split; [reflexivity|].
  split; [exact (proj1 (H1 Hall))|].
  apply H2; reflexivity.
Defined.

Example stale_callback_runs :
  fired (trace (run [Invoke []; Render second_input_op (mkDeps 2 [9]) default_options;
                     Invoke []]
                 (mount first_input_op (mkDeps 1 [9]) default_options))) = [] /\
  trace (run [Invoke []; Render second_input_op (mkDeps 2 [9]) default_options;
              Invoke []]
           (mount first_input_op (mkDeps 1 [9]) default_options))
    = [EvOp 1; EvOp 1].
Proof. split; reflexivity. Qed.

(** C6 (trigger independence).  With [cleanUpOnCall] and
    [cleanUpOnDepsChange] off and [cleanUpOnUnmount] on, a run of
    invocations that each store a cleanup fires nothing at any point
    before the unmount, and the unmount fires exactly the cleanup stored
    by the last invocation; the earlier ones never fire. *)
Theorem no_call_options_fire_only_last
    (op : Operation) (deps : DepsArray)
    (pre : list (list nat)) (lastargs : list nat) (a : Action)
    (Harms : arms op)
    (Hlast : released (op_run op lastargs (length pre)) = Some a) :
  let s0 := mount op deps no_call_options in
  let s := run (map Invoke (pre ++ [lastargs])) s0 in
  (forall k, fired (trace (run (map Invoke (firstn k (pre ++ [lastargs]))) s0))
             = []) /\
  fired (trace (unmount s)) = [a].
Proof.
  intros s0 s. split.
  - intro k. apply (invokes_arming_no_call _ s0 eq_refl Harms).
  - set (sp := run (map Invoke pre) s0).
    assert (Es : s = snd (invoke lastargs sp)).
    { subst s sp. rewrite map_app, run_app. reflexivity. }
    destruct (invokes_arming_no_call pre s0 eq_refl Harms)
      as (F & O & C & Mo & N).
    fold sp in F, O, C, Mo, N. simpl in F, O, C, Mo, N.
    assert (Hrel : released (op_run (cl_op (memo_cb sp)) lastargs (op_calls sp))
                   = Some a) by (rewrite C, N; exact Hlast).
    destruct (invoke_arming_no_call sp lastargs a (f_equal cleanUpOnCall O) Hrel)
      as (F2 & O2 & _ & Mo2 & _ & Cl2).
    rewrite <- Es in F2, O2, Mo2, Cl2.
    rewrite (unmount_fires_current s false (next_obj sp) a).
    + rewrite fired_app, F2, F. reflexivity.
    + rewrite Mo2, Mo. reflexivity.
    + rewrite O2, O. reflexivity.
    + exact Cl2.
Qed.

Lemma no_call_options_fire_only_last_witness :
  arms fresh_release_op /\
  released (op_run fresh_release_op [] (length [[]; [] : list nat]))
    = Some (Act 2 false) /\
  fired (trace (unmount (run (map Invoke ([[]; []] ++ [[]]))
                           (mount fresh_release_op (mkDeps 1 []) no_call_options))))
    = [Act 2 false].
Proof.
  assert (Ha : arms fresh_release_op) by (intros args n; simpl; discriminate).
  assert (Hl : released (op_run fresh_release_op [] (length [[]; [] : list nat]))
               = Some (Act 2 false)) by reflexivity.
  split; [exact Ha|]. split; [exact Hl|].
  exact (proj2 (no_call_options_fire_only_last fresh_release_op (mkDeps 1 [])
                  [[]; []] [] (Act 2 false) Ha Hl)).
Defined.

(** C7 (value pass-through).  When the user callback returns the object
    [{ value, cleanup }], the invocation that called it returns exactly
    [value], and stores [cleanup] in a fresh, not yet called, ref object;
    whatever cleanup fired before does not matter. *)
Theorem object_result_value_passthrough (s : St) (args : list nat)
    (value : nat) (c : option Action)
    (Hstep1 : fst (cleanup_previous_call s) = Ok tt)
    (Hop : op_run (cl_op (memo_cb s)) args (op_calls s)
           = Returns (RObject value c)) :
  fst (invoke args s) = Ok (VValue value) /\
  cleanupRef (snd (invoke args s)) = mkSlot (next_obj s) c false.
Proof.
  open_invoke s args Hstep1 Hop. rewrite Hno. auto.
Qed.

Lemma object_result_value_passthrough_witness :
  fst (cleanup_previous_call object_state) = Ok tt /\
  op_run (cl_op (memo_cb object_state)) [] (op_calls object_state)
    = Returns (RObject 11 (Some (Act 0 false))) /\
  fst (invoke [] object_state) = Ok (VValue 11) /\
  cleanupRef (snd (invoke [] object_state))
    = mkSlot (next_obj object_state) (Some (Act 0 false)) false.
Proof.
  assert (H1 : fst (cleanup_previous_call object_state) = Ok tt)
    by reflexivity.
  assert (H2 : op_run (cl_op (memo_cb object_state)) [] (op_calls object_state)
               = Returns (RObject 11 (Some (Act 0 false)))) by reflexivity.
  split; [exact H1|]. split; [exact H2|].
  exact (object_result_value_passthrough object_state [] 11 _ H1 H2).
Defined.

(** C8 (operation failure).  When the user callback throws, the
    invocation fails with that very exception, allocates and stores
    nothing, and leaves the ref object exactly as step 1 left it: no
    pending cleanup if [cleanUpOnCall] is set, the previous object
    untouched otherwise. *)
Theorem operation_failure_leaves_slot (s : St) (args : list nat) (e : nat)
    (Hstep1 : fst (cleanup_previous_call s) = Ok tt)
    (Hop : op_run (cl_op (memo_cb s)) args (op_calls s) = Throws e) :
  fst (invoke args s) = Err (ExnOp e) /\
  cleanupRef (snd (invoke args s)) = cleanupRef (snd (cleanup_previous_call s)) /\
  next_obj (snd (invoke args s)) = next_obj s /\
  (cleanUpOnCall (optionsRef s) = true ->
   pending (cleanupRef (snd (invoke args s))) = false) /\
  (cleanUpOnCall (optionsRef s) = false ->
   cleanupRef (snd (invoke args s)) = cleanupRef s).
Proof.
  open_invoke s args Hstep1 Hop.
  repeat split; auto.
  intro H. rewrite (Hoff H). reflexivity.
Qed.

Lemma operation_failure_leaves_slot_witness :
  fst (cleanup_previous_call throwing_state) = Ok tt /\
  op_run (cl_op (memo_cb throwing_state)) [] (op_calls throwing_state)
    = Throws 99 /\
  fst (invoke [] throwing_state) = Err (ExnOp 99) /\
  pending (cleanupRef (snd (invoke [] throwing_state))) = false.
Proof.
  assert (H1 : fst (cleanup_previous_call throwing_state) = Ok tt)
    by reflexivity.
  assert (H2 : op_run (cl_op (memo_cb throwing_state)) []
                 (op_calls throwing_state) = Throws 99) by reflexivity.
  destruct (operation_failure_leaves_slot throwing_state [] 99 H1 H2)
    as (R & _ & _ & Hon & _).
  split; [exact H1|]. split; [exact H2|]. split; [exact R|].
  apply Hon. reflexivity.
Defined.

(** C9 (bare cleanup result).  When the user callback returns a function,
    that function is stored as the pending cleanup in a fresh ref object
    and is itself what the invocation returns: the caller gets the
    cleanup back, no separate payload. *)
Theorem function_result_returns_cleanup (s : St) (args : list nat)
    (a : Action)
    (Hstep1 : fst (cleanup_previous_call s) = Ok tt)
    (Hop : op_run (cl_op (memo_cb s)) args (op_calls s)
           = Returns (RFunction a)) :
  fst (invoke args s) = Ok (VFunction a) /\
  cleanupRef (snd (invoke args s)) = mkSlot (next_obj s) (Some a) false /\
  pending (cleanupRef (snd (invoke args s))) = true.
Proof.
  open_invoke s args Hstep1 Hop. rewrite Hno. auto.
Qed.

Lemma function_result_returns_cleanup_witness :
  fst (cleanup_previous_call first_call_state) = Ok tt /\
  op_run (cl_op (memo_cb first_call_state)) [] (op_calls first_call_state)
    = Returns (RFunction (Act 0 false)) /\
  fst (invoke [] first_call_state) = Ok (VFunction (Act 0 false)).
Proof.
  assert (H1 : fst (cleanup_previous_call first_call_state) = Ok tt)
    by reflexivity.
  assert (H2 : op_run (cl_op (memo_cb first_call_state)) []
                 (op_calls first_call_state)
               = Returns (RFunction (Act 0 false))) by reflexivity.
  split; [exact H1|]. split; [exact H2|].
  exact (proj1 (function_result_returns_cleanup first_call_state [] _ H1 H2)).
Defined.

(** ** Further properties of the hook *)

Lemma handleCleanupObj_trace (s : St) :
  trace (snd (handleCleanupObj s)) = trace s ++ fire_if true (cleanupRef s) /\
  mounted (snd (handleCleanupObj s)) = mounted s /\
  optionsRef (snd (handleCleanupObj s)) = optionsRef s.
Proof.
  unfold handleCleanupObj, fire_if.
  destruct (cleanupRef s) as [g [a|] b]; simpl; destruct b; simpl;
    rewrite ?app_nil_r; auto.
  destruct (action_throws a); simpl; auto.
Qed.

Lemma teardown_trace (b : bool) (s : St) :
  trace (run_teardown (if b then handleCleanupObj else ret tt) s)
    = trace s ++ fire_if b (cleanupRef s) /\
  mounted (run_teardown (if b then handleCleanupObj else ret tt) s) = mounted s /\
  optionsRef (run_teardown (if b then handleCleanupObj else ret tt) s)
    = optionsRef s /\
  cleanupRef (run_teardown (if b then handleCleanupObj else ret tt) s)
    = (if b then cleanupRef (snd (handleCleanupObj s)) else cleanupRef s).
Proof.
  unfold run_teardown. destruct b.
  - destruct (handleCleanupObj_trace s) as (? & ? & ?). auto.
  - unfold fire_if, ret; simpl.
    destruct (cleanup (cleanupRef s)); rewrite app_nil_r; auto.
Qed.

(** X1.  [handleCleanupObj] is idempotent: right after it ran, running it
    again on the same ref object does nothing and does not throw. *)
Theorem handleCleanupObj_idempotent (s : St) :
  handleCleanupObj (snd (handleCleanupObj s)) = (Ok tt, snd (handleCleanupObj s)).
Proof.
  destruct s as [[g c b] o md mc de mo no nf oc t].
  unfold handleCleanupObj; simpl.
  destruct b, c as [a|]; simpl; try reflexivity.
  destruct (action_throws a); reflexivity.
Qed.

Lemma unmount_trace (s : St) :
  mounted s = true ->
  trace (unmount s)
    = trace s ++ fire_if (cleanUpOnDepsChange (optionsRef s)
                          || cleanUpOnUnmount (optionsRef s)) (cleanupRef s) /\
  mounted (unmount s) = false.
Proof.
  intro Hm.
  destruct s as [[g c b] [x y z] md mc de mo no nf oc t]; simpl in Hm; subst mo.
  unfold unmount, run_teardown, unmount_teardown, deps_teardown, bind, gets,
    handleCleanupObj, fire_if, ret; simpl.
  destruct y, z, b, c as [a|]; simpl; rewrite ?app_nil_r;
    try (split; reflexivity);
    destruct (action_throws a); simpl; rewrite ?app_nil_r; split; reflexivity.
Qed.

(** X2.  Unmounting runs the deps-change destroy and then the unmount
    destroy, each guarded by its option.  Together they call the pending
    cleanup exactly once when either option is set, even when both are,
    and call nothing when neither is. *)
Theorem unmount_fires_pending_once (s : St) :
  mounted s = true ->
  trace (unmount s)
    = trace s ++ fire_if (cleanUpOnDepsChange (optionsRef s)
                          || cleanUpOnUnmount (optionsRef s)) (cleanupRef s) /\
  mounted (unmount s) = false.
Proof. apply unmount_trace. Qed.

Lemma unmount_fires_pending_once_witness :
  mounted pending_state = true /\
  trace (unmount pending_state)
    = trace pending_state ++ [EvFire 1 (Act 0 false)] /\
  mounted (unmount pending_state) = false.
Proof.
  assert (Hm : mounted pending_state = true) by reflexivity.
  destruct (unmount_fires_pending_once pending_state Hm) as (T & F).
  split; [exact Hm|]. split; [|exact F].
  rewrite T. reflexivity.
Defined.

Lemma step1_fires (s : St) (g : nat) (a : Action) :
  cleanUpOnCall (optionsRef s) = true -> cleanupRef s = mkSlot g (Some a) false ->
  cleanup_previous_call s
  = (if action_throws a then Err (ExnAction a) else Ok tt,
     emit (EvFire g a) (set_cleanupRef (mkSlot g (Some a) true) s)).
Proof.
  intros Ho Hc. unfold cleanup_previous_call, bind, gets; simpl.
  rewrite Ho. unfold handleCleanupObj. rewrite Hc. simpl.
  destruct (action_throws a); reflexivity.
Qed.

(** X3.  With [cleanUpOnCall] set, an invocation first calls the pending
    cleanup and only then the user callback: exactly these two events, in
    this order, whatever the callback returns or throws. *)
Theorem invoke_fires_pending_before_callback (s : St) (args : list nat)
    (g : nat) (a : Action) :
  cleanUpOnCall (optionsRef s) = true -> cleanupRef s = mkSlot g (Some a) false ->
  action_throws a = false ->
  trace (snd (invoke args s))
    = trace s ++ [EvFire g a; EvOp (op_id (cl_op (memo_cb s)))].
Proof.
  intros Ho Hc Ht.
  pose proof (step1_fires s g a Ho Hc) as E. rewrite Ht in E.
  assert (Hstep1 : fst (cleanup_previous_call s) = Ok tt) by (rewrite E; reflexivity).
  rewrite (invoke_after_step1 s args Hstep1), E. simpl.
  unfold call_op, bind; simpl.
  destruct (op_run (cl_op (memo_cb s)) args (op_calls s)) as [[|a'|v c]|e];
    simpl; rewrite <- app_assoc; reflexivity.
Qed.

Lemma invoke_fires_pending_before_callback_witness :
  cleanUpOnCall (optionsRef pending_state) = true /\
  cleanupRef pending_state = mkSlot 1 (Some (Act 0 false)) false /\
  action_throws (Act 0 false) = false /\
  trace (snd (invoke [] pending_state))
    = trace pending_state ++ [EvFire 1 (Act 0 false); EvOp 5].
Proof.
  assert (H1 : cleanUpOnCall (optionsRef pending_state) = true) by reflexivity.
  assert (H2 : cleanupRef pending_state = mkSlot 1 (Some (Act 0 false)) false)
    by reflexivity.
  assert (H3 : action_throws (Act 0 false) = false) by reflexivity.
  split; [exact H1|]. split; [exact H2|]. split; [exact H3|].
  exact (invoke_fires_pending_before_callback pending_state [] 1 _ H1 H2 H3).
Defined.

(** X4.  With [cleanUpOnCall] set, a pending cleanup that throws aborts
    the invocation: its exception propagates, the user callback is not
    called, nothing new is stored, and the cleanup stays marked called. *)
Theorem invoke_aborts_on_throwing_cleanup (s : St) (args : list nat)
    (g : nat) (a : Action) :
  cleanUpOnCall (optionsRef s) = true -> cleanupRef s = mkSlot g (Some a) false ->
  action_throws a = true ->
  fst (invoke args s) = Err (ExnAction a) /\
  trace (snd (invoke args s)) = trace s ++ [EvFire g a] /\
  op_calls (snd (invoke args s)) = op_calls s /\
  next_obj (snd (invoke args s)) = next_obj s /\
  cleanupRef (snd (invoke args s)) = mkSlot g (Some a) true.
Proof.
  intros Ho Hc Ht.
  pose proof (step1_fires s g a Ho Hc) as E. rewrite Ht in E.
  assert (I : invoke args s
              = (Err (ExnAction a),
                 emit (EvFire g a) (set_cleanupRef (mkSlot g (Some a) true) s))).
  { unfold invoke, outputCallback. unfold bind at 1. rewrite E. reflexivity. }
  rewrite I. repeat split; reflexivity.
Qed.

Lemma invoke_aborts_on_throwing_cleanup_witness :
  cleanUpOnCall (optionsRef throwing_cleanup_state) = true /\
  cleanupRef throwing_cleanup_state = mkSlot 1 (Some (Act 0 true)) false /\
  action_throws (Act 0 true) = true /\
  fst (invoke [] throwing_cleanup_state) = Err (ExnAction (Act 0 true)).
Proof.
  assert (H1 : cleanUpOnCall (optionsRef throwing_cleanup_state) = true)
    by reflexivity.
  assert (H2 : cleanupRef throwing_cleanup_state
               = mkSlot 1 (Some (Act 0 true)) false) by reflexivity.
  assert (H3 : action_throws (Act 0 true) = true) by reflexivity.
  split; [exact H1|]. split; [exact H2|]. split; [exact H3|].
  exact (proj1 (invoke_aborts_on_throwing_cleanup throwing_cleanup_state []
                  1 _ H1 H2 H3)).
Defined.

(** X5.  After an invocation whose user callback returned, a cleanup is
    pending exactly when the callback handed one over: a function result
    always, an object result only when its [cleanup] is a function (an
    object without one replaces, and so discards, the previous cleanup);
    an [undefined] result leaves the slot as step 1 left it. *)
Theorem pending_after_invoke (s : St) (args : list nat) (r : ReturnValue) :
  fst (cleanup_previous_call s) = Ok tt ->
  op_run (cl_op (memo_cb s)) args (op_calls s) = Returns r ->
  pending (cleanupRef (snd (invoke args s)))
  = match r with
    | RUndefined => pending (cleanupRef (snd (cleanup_previous_call s)))
    | RFunction _ => true
    | RObject _ (Some _) => true
    | RObject _ None => false
    end.
Proof.
  intros Hstep1 Hop.
  pose proof (cleanup_previous_call_effect s Hstep1) as (Hoc & _).
  rewrite (invoke_after_step1 s args Hstep1).
  unfold call_op, bind. rewrite Hoc, Hop.
  destruct r as [|a|v [c|]]; reflexivity.
Qed.

Lemma pending_after_invoke_witness :
  fst (cleanup_previous_call no_call_pending_state) = Ok tt /\
  op_run (cl_op (memo_cb no_call_pending_state)) []
    (op_calls no_call_pending_state) = Returns (RObject 3 None) /\
  pending (cleanupRef no_call_pending_state) = true /\
  pending (cleanupRef (snd (invoke [] no_call_pending_state))) = false.
Proof.
  assert (H1 : fst (cleanup_previous_call no_call_pending_state) = Ok tt)
    by reflexivity.
  assert (H2 : op_run (cl_op (memo_cb no_call_pending_state)) []
                 (op_calls no_call_pending_state) = Returns (RObject 3 None))
    by reflexivity.
  split; [exact H1|]. split; [exact H2|]. split; [reflexivity|].
  exact (pending_after_invoke no_call_pending_state [] _ H1 H2).
Defined.

Lemma render_same_array (op : Operation) (deps : DepsArray) (opts : Options)
    (s : St) :
  mounted s = true -> arr_id deps = deps_effect_dep s ->
  trace (render op deps opts s) = trace s /\
  cleanupRef (render op deps opts s) = cleanupRef s /\
  optionsRef (render op deps opts s) = opts /\
  mounted (render op deps opts s) = true.
Proof.
  intros Hm Hid. unfold render. rewrite Hm. simpl.
  destruct (deps_equal (arr_items deps) (memo_deps s)); simpl;
    rewrite Hid, Nat.eqb_refl; simpl; auto.
Qed.

(** X6.  The options are read live: after a re-render that keeps the
    same deps array, the unmount follows the options passed on that
    last render, not the ones the hook was mounted with. *)
Theorem unmount_uses_latest_options (s : St) (op : Operation)
    (deps : DepsArray) (opts : Options) :
  mounted s = true -> arr_id deps = deps_effect_dep s ->
  trace (unmount (render op deps opts s))
    = trace s ++ fire_if (cleanUpOnDepsChange opts || cleanUpOnUnmount opts)
                   (cleanupRef s).
Proof.
  intros Hm Hid.
  destruct (render_same_array op deps opts s Hm Hid) as (T & C & O & M').
  rewrite (proj1 (unmount_trace _ M')), T, C, O. reflexivity.
Qed.

Lemma unmount_uses_latest_options_witness :
  mounted pending_state = true /\
  arr_id (mkDeps 1 []) = deps_effect_dep pending_state /\
  trace (unmount (render release_then_undefined_op (mkDeps 1 [])
                    (mkOptions true false false) pending_state))
    = trace pending_state.
Proof.
  assert (H1 : mounted pending_state = true) by reflexivity.
  assert (H2 : arr_id (mkDeps 1 []) = deps_effect_dep pending_state)
    by reflexivity.
  split; [exact H1|]. split; [exact H2|].
  rewrite (unmount_uses_latest_options pending_state release_then_undefined_op
             (mkDeps 1 []) (mkOptions true false false) H1 H2).
  apply app_nil_r.
Defined.

(** X7.  On a re-render with a new deps array object, the deps-change
    destroy runs before the options ref is updated, so whether it calls
    the pending cleanup is decided by the options of the previous render;
    the options passed on this render are stored afterwards. *)
Theorem deps_teardown_uses_previous_options (s : St) (op : Operation)
    (deps : DepsArray) (opts : Options) :
  mounted s = true -> arr_id deps <> deps_effect_dep s ->
  trace (render op deps opts s)
    = trace s ++ fire_if (cleanUpOnDepsChange (optionsRef s)) (cleanupRef s) /\
  optionsRef (render op deps opts s) = opts.
Proof.
  intros Hm Hid. apply Nat.eqb_neq in Hid.
  destruct s as [[g c b] [x y z] md mc de mo no nf oc t]; simpl in *; subst mo.
  unfold render; simpl.
  destruct (deps_equal (arr_items deps) md); simpl; rewrite Hid; simpl;
    unfold run_teardown, deps_teardown, bind, gets, handleCleanupObj, fire_if,
      ret; simpl;
    destruct y, b, c as [a|]; simpl; rewrite ?app_nil_r; try (split; reflexivity);
    destruct (action_throws a); split; reflexivity.
Qed.

Lemma deps_teardown_uses_previous_options_witness :
  mounted pending_state = true /\
  arr_id (mkDeps 2 []) <> deps_effect_dep pending_state /\
  trace (render release_then_undefined_op (mkDeps 2 []) deps_change_options
           pending_state) = trace pending_state.
Proof.
  assert (H1 : mounted pending_state = true) by reflexivity.
  assert (H2 : arr_id (mkDeps 2 []) <> deps_effect_dep pending_state)
    by (simpl; lia).
  split; [exact H1|]. split; [exact H2|].
  rewrite (proj1 (deps_teardown_uses_previous_options pending_state
             release_then_undefined_op (mkDeps 2 []) deps_change_options H1 H2)).
  apply app_nil_r.
Defined.

(** ** Properties of the earlier versions *)

(** [src/src/index.ts]: the output callback stores whatever the callback
    returned, so a result of [undefined] replaces the pending cleanup and
    the unmount destroy then fires nothing. *)
Theorem v1_undefined_result_clears (callback : Operation) (args : list nat)
    (s : IndexV1.St1) :
  fst (IndexV1.executeIfFunction (IndexV1.cleanupCallback s) s) = Ok tt ->
  op_run callback args (IndexV1.calls s) = Returns RUndefined ->
  let s' := snd (IndexV1.outputCallback callback args s) in
  fst (IndexV1.outputCallback callback args s) = Ok RUndefined /\
  IndexV1.cleanupCallback s' = Some RUndefined /\
  IndexV1.events (IndexV1.unmount_destroy s') = IndexV1.events s'.
Proof.
  intros E R.
  unfold IndexV1.outputCallback, IndexV1.unmount_destroy,
    IndexV1.executeIfFunction in *.
  destruct s as [[[|a|v c]|] k ev]; cbn in *;
    try (destruct (action_throws a); [cbn in E; discriminate E|]); cbn;
    rewrite R; repeat split; reflexivity.
Qed.

Lemma v1_undefined_result_clears_witness :
  let s := IndexV1.mkSt1 (Some (RFunction (Act 1 false))) 0 [] in
  fst (IndexV1.executeIfFunction (IndexV1.cleanupCallback s) s) = Ok tt /\
  op_run v1_undefined_op [] (IndexV1.calls s) = Returns RUndefined /\
  (let s' := snd (IndexV1.outputCallback v1_undefined_op [] s) in
   fst (IndexV1.outputCallback v1_undefined_op [] s) = Ok RUndefined /\
   IndexV1.cleanupCallback s' = Some RUndefined /\
   IndexV1.events (IndexV1.unmount_destroy s') = IndexV1.events s').
Proof.
  cbv zeta. split; [reflexivity|]. split; [reflexivity|].
  apply (v1_undefined_result_clears v1_undefined_op []
           (IndexV1.mkSt1 (Some (RFunction (Act 1 false))) 0 []));
    reflexivity.
Defined.

(** [src/src/index.ts]: when the callback throws, the ref is not updated,
    so the cleanup that already ran before the call runs a second time at
    unmount. *)
Theorem v1_cleanup_refires_after_throw (callback : Operation)
    (args : list nat) (s : IndexV1.St1) (a : Action) (e : nat) :
  IndexV1.cleanupCallback s = Some (RFunction a) ->
  action_throws a = false ->
  op_run callback args (IndexV1.calls s) = Throws e ->
  fst (IndexV1.outputCallback callback args s) = Err (ExnOp e) /\
  IndexV1.events (IndexV1.unmount_destroy
                    (snd (IndexV1.outputCallback callback args s))) =
    IndexV1.events s ++ [LFire a; LOp (op_id callback); LFire a].
Proof.
  intros C T R.
  unfold IndexV1.outputCallback, IndexV1.unmount_destroy,
    IndexV1.executeIfFunction.
  destruct s as [ref k ev]; cbn in *; subst ref; rewrite T; cbn.
  rewrite R; cbn. rewrite T.
  split; [reflexivity|]. cbn. rewrite <- !app_assoc. reflexivity.
Qed.

Lemma v1_cleanup_refires_after_throw_witness :
  IndexV1.cleanupCallback (IndexV1.mkSt1 (Some (RFunction (Act 1 false))) 0 [])
    = Some (RFunction (Act 1 false)) /\
  action_throws (Act 1 false) = false /\
  op_run v1_throwing_op [] 0 = Throws 0 /\
  fst (IndexV1.outputCallback v1_throwing_op []
         (IndexV1.mkSt1 (Some (RFunction (Act 1 false))) 0 [])) = Err (ExnOp 0) /\
  IndexV1.events (IndexV1.unmount_destroy
     (snd (IndexV1.outputCallback v1_throwing_op []
             (IndexV1.mkSt1 (Some (RFunction (Act 1 false))) 0 [])))) =
    [LFire (Act 1 false); LOp 11; LFire (Act 1 false)].
Proof.
  split; [reflexivity|]. split; [reflexivity|]. split; [reflexivity|].
  apply (v1_cleanup_refires_after_throw v1_throwing_op []
           (IndexV1.mkSt1 (Some (RFunction (Act 1 false))) 0 [])
           (Act 1 false) 0); reflexivity.
Defined.

(** Object-notation version: a cleanup is replaced only by a result that
    carries a new one; when the callback returns [undefined] or throws,
    the cleanup that just ran stays in the ref and runs again at unmount. *)
Theorem v2_cleanup_refires_when_not_replaced (callback : Operation)
    (args : list nat) (s : ObjectV2.St2) (a : Action) :
  ObjectV2.cleanupRef s = Some a ->
  action_throws a = false ->
  (op_run callback args (ObjectV2.calls s) = Returns RUndefined \/
   exists e, op_run callback args (ObjectV2.calls s) = Throws e) ->
  let s' := snd (ObjectV2.outputCallback callback args s) in
  ObjectV2.cleanupRef s' = Some a /\
  ObjectV2.events (ObjectV2.unmount_destroy s') =
    ObjectV2.events s ++ [LFire a; LOp (op_id callback); LFire a].
Proof.
  intros C T R.
  unfold ObjectV2.outputCallback, ObjectV2.unmount_destroy,
    ObjectV2.executeIfFunction.
  destruct s as [ref k ev]; cbn in *; subst ref; rewrite T; cbn.
  destruct R as [R | [e R]]; rewrite R; cbn; rewrite T;
    (split; [reflexivity|]); cbn; rewrite <- !app_assoc; reflexivity.
Qed.

Lemma v2_cleanup_refires_when_not_replaced_witness :
  let s := ObjectV2.mkSt2 (Some (Act 1 false)) 0 [] in
  ObjectV2.cleanupRef s = Some (Act 1 false) /\
  action_throws (Act 1 false) = false /\
  (let s' := snd (ObjectV2.outputCallback v1_undefined_op [] s) in
   ObjectV2.cleanupRef s' = Some (Act 1 false) /\
   ObjectV2.events (ObjectV2.unmount_destroy s') =
     ObjectV2.events s ++ [LFire (Act 1 false); LOp 10; LFire (Act 1 false)]).
Proof.
  cbv zeta. split; [reflexivity|]. split; [reflexivity|].
  apply (v2_cleanup_refires_when_not_replaced v1_undefined_op []
           (ObjectV2.mkSt2 (Some (Act 1 false)) 0 []) (Act 1 false));
    [reflexivity | reflexivity | left; reflexivity].
Defined.

(** Object-notation version: with a callback that always returns
    [undefined], the same stored cleanup runs once before every call, [n]
    times over [n] calls, and is still pending afterwards. *)
Theorem v2_cleanup_runs_before_every_call (n : nat) (callback : Operation)
    (s : ObjectV2.St2) (a : Action) :
  ObjectV2.cleanupRef s = Some a ->
  action_throws a = false ->
  (forall args k, op_run callback args k = Returns RUndefined) ->
  ObjectV2.cleanupRef (ObjectV2.invokes n callback s) = Some a /\
  ObjectV2.events (ObjectV2.invokes n callback s) =
    ObjectV2.events s ++ concat (repeat [LFire a; LOp (op_id callback)] n).
Proof.
  intros C T R. revert s C.
  induction n as [|n IH]; intros [ref k ev] C; cbn in C; subst ref.
  - cbn. rewrite app_nil_r. split; reflexivity.
  - cbn [ObjectV2.invokes].
    destruct (IH (snd (ObjectV2.outputCallback callback []
                         (ObjectV2.mkSt2 (Some a) k ev)))) as [IH1 IH2].
    + unfold ObjectV2.outputCallback, ObjectV2.executeIfFunction.
      cbn. rewrite T. cbn. rewrite R. reflexivity.
    + split; [exact IH1|]. rewrite IH2.
      unfold ObjectV2.outputCallback, ObjectV2.executeIfFunction.
      cbn. rewrite T. cbn. rewrite R. cbn.
      rewrite <- !app_assoc. reflexivity.
Qed.

Lemma v2_cleanup_runs_before_every_call_witness :
  ObjectV2.cleanupRef (ObjectV2.mkSt2 (Some (Act 1 false)) 0 []) =
    Some (Act 1 false) /\
  action_throws (Act 1 false) = false /\
  (forall args k, op_run v1_undefined_op args k = Returns RUndefined) /\
  ObjectV2.cleanupRef (ObjectV2.invokes 3 v1_undefined_op
                         (ObjectV2.mkSt2 (Some (Act 1 false)) 0 [])) =
    Some (Act 1 false) /\
  ObjectV2.events (ObjectV2.invokes 3 v1_undefined_op
                     (ObjectV2.mkSt2 (Some (Act 1 false)) 0 [])) =
    [] ++ concat (repeat [LFire (Act 1 false); LOp 10] 3).
Proof.
  split; [reflexivity|]. split; [reflexivity|].
  split; [intros; reflexivity|].
  apply (v2_cleanup_runs_before_every_call 3 v1_undefined_op
           (ObjectV2.mkSt2 (Some (Act 1 false)) 0 []) (Act 1 false));
    [reflexivity | reflexivity | intros; reflexivity].
Defined.
